(** * utils/addresses.py: first-seen contract addresses of a deployment broadcast

    The script loads a JSON document, walks [d["transactions"]] and prints,
    for every contract name it has not met before, the name left-justified
    to 12 characters and the address of that record.

    The embedding follows the script statement by statement:
    - Python values that [json.load] can produce are the type [value];
    - the two pieces of mutable state, standard output and the module-level
      list [contractNames], are the record [world];
    - every statement is a computation in [Script], a state monad over
      [world] whose result is either a value or an uncaught exception. The
      world reached when an exception is raised is kept: what was written
      before the failure stays written.

    Text is a [string], one [ascii] per character of the Python [str], so
    that [String.length] is Python's [len]. Standard output is the stream of
    characters written so far, with no trace of which call wrote what; a
    line of the output ends at a newline character. [print] writes its
    arguments one after the other, and writing a text that the encoding of
    the stream cannot encode raises [UnicodeEncodeError] with the earlier
    arguments already written. Reading the file is [open] against a finite
    map from the paths that exist to their contents; parsing is left to a
    parameter, [json_load]. *)

From Stdlib Require Import Floats Ascii.
From stdpp Require Import gmap strings list sorting.

Set Warnings "-register-all".

(** ** Python values *)

(** What [json.load] returns: [None], [bool], [int], [float], [str], [list]
    and [dict] with [str] keys. *)
Inductive value : Type :=
  | VNone
  | VBool (b : bool)
  | VInt (n : Z)
  | VFloat (x : float)
  | VStr (s : string)
  | VList (l : list value)
  | VDict (m : gmap string value).

(** The exceptions that can leave the script. *)
Inductive exn : Type :=
  | FileNotFoundError
  | JSONDecodeError
  | KeyError (key : string)
  | TypeError
  | AttributeError (attr : string)
  | UnicodeEncodeError.

Inductive result (A : Type) : Type :=
  | Returned (a : A)
  | Raised (e : exn).
Arguments Returned {A} a.
Arguments Raised {A} e.

(** ** The state the script acts on *)

(** [stdout] is the text written to standard output so far;
    [contractNames] is the list of the same name in the script. It only ever
    receives values whose [ljust] method was called, so its elements are
    [str]. *)
Record world : Type := World {
  stdout : string;
  contractNames : list string
}.

Definition Script (A : Type) : Type := world → result A * world.

#[global] Instance Script_ret : MRet Script := λ A a w, (Returned a, w).

#[global] Instance Script_bind : MBind Script := λ A B g c w,
  match c w with
  | (Returned a, w') => g a w'
  | (Raised e, w') => (Raised e, w')
  end.

#[global] Instance Script_throw : MThrow exn Script := λ A e w, (Raised e, w).

(** ** The built-in operations the script uses *)

(** [v[key]] for a [str] key. A [dict] without the key raises [KeyError];
    [list] and [str] only take integer indices and the other values are not
    subscriptable: [TypeError]. *)
Definition subscript (v : value) (key : string) : result value :=
  match v with
  | VDict m =>
      match m !! key with
      | Some x => Returned x
      | None => Raised (KeyError key)
      end
  | _ => Raised TypeError
  end.

Definition getitem (v : value) (key : string) : Script value := λ w,
  (subscript v key, w).

(** The items a [for] loop draws from [v]: the elements of a [list], the keys
    of a [dict], the characters of a [str]; anything else is not iterable.
    The keys of a [gmap] come in an order of its own, not in the order of
    insertion of a Python [dict]; the loop of this script raises on the
    first key whichever it is (see [for_in_text]). *)
Definition iter (v : value) : Script (list value) :=
  match v with
  | VList l => mret l
  | VDict m => mret (VStr <$> (map_to_list m).*1)
  | VStr s => mret ((λ c, VStr (String c "")) <$> String.list_ascii_of_string s)
  | _ => mthrow TypeError
  end.

(** [for k in items: body], stopping at the first exception. *)
Fixpoint for_in (items : list value) (body : value → Script unit) : Script unit :=
  match items with
  | [] => mret ()
  | k :: rest => body k;; for_in rest body
  end.

Definition spaces (n : nat) : string := String.string_of_list_ascii (replicate n " "%char).

(** [str.ljust(width)]: the string itself when it is at least [width] long,
    otherwise padded on the right with spaces up to [width]. *)
Definition ljust (s : string) (width : nat) : string :=
  if decide (width ≤ String.length s) then s
  else s +:+ spaces (width - String.length s).

Definition newline : string := String "010"%char "".

(** [x not in contractNames]. List membership compares with [==]; a [str] is
    equal to no value of another type. *)
Definition not_in_contractNames (x : value) : Script bool := λ w,
  (Returned match x with
            | VStr s => bool_decide (s ∉ contractNames w)
            | _ => true
            end, w).

Definition contractNames_append (s : string) : Script unit := λ w,
  (Returned (), World (stdout w) (contractNames w ++ [s])).

Definition contractNames_reset : Script unit := λ w,
  (Returned (), World (stdout w) []).

Definition P : string :=
  "/Users/shafu/bet-makers/broadcast/Deploy.chilliz.s.sol/88882/run-latest.json".

(** [open(P)] against a file system given as the contents of the paths that
    exist. *)
Definition open (fs : gmap string string) (path : string) : Script string :=
  match fs !! path with
  | Some text => mret text
  | None => mthrow FileNotFoundError
  end.

(** The separator and the end of line that [print] writes. Both are ASCII,
    which the encoding of a text stream always encodes: writing them adds
    them to the output. *)
Definition write_ascii (text : string) : Script unit := λ w,
  (Returned (), World (stdout w +:+ text) (contractNames w)).

Section Script.

(** [str(v)] for the values that are not [str]. The text Python gives
    them (for a float or for a container) is not reproduced here;
    the results below hold whatever it is. *)
Variable str_other : value → string.

(** Whether the encoding of standard output can encode a text. It depends
    on how the script is started (UTF-8 encodes every text but one with a
    lone surrogate, ASCII only the texts made of ASCII characters); the
    results below hold whatever it is. *)
Variable encodable : string → bool.

(** [json.load]: the parsed document, or the exception raised on text that
    is not JSON. *)
Variable json_load : string → result value.

Definition str (v : value) : string :=
  match v with
  | VStr s => s
  | _ => str_other v
  end.

(** [sys.stdout.write(text)]: the text is encoded as a whole before any of
    it reaches the stream. *)
Definition write (text : string) : Script unit := λ w,
  if encodable text then (Returned (), World (stdout w +:+ text) (contractNames w))
  else (Raised UnicodeEncodeError, w).

(** The arguments of [print] after the first: a space, then the argument. *)
Fixpoint print_rest (args : list value) : Script unit :=
  match args with
  | [] => mret ()
  | a :: rest => write_ascii " ";; write (str a);; print_rest rest
  end.

(** [print(a, b, ...)]: each argument converted with [str] and written in
    turn, a single space written between two arguments, a newline written
    at the end. *)
Definition print (args : list value) : Script unit :=
  match args with
  | [] => mret ()
  | a :: rest => write (str a);; print_rest rest
  end;;
  write_ascii newline.

(** The body of the loop: one record [k] of the transactions. *)
Definition loop_body (k : value) : Script unit :=
  contractName ← getitem k "contractName";
  fresh ← not_in_contractNames contractName;
  if fresh : bool then
    match contractName with
    | VStr name =>
        address ← getitem k "contractAddress";
        print [VStr (ljust name 12); address];;
        contractNames_append name
    | _ => mthrow (AttributeError "ljust")
    end
  else mret ().

(** The script from [contractNames = []] on, for a document [d] already
    loaded. *)
Definition extract (d : value) : Script unit :=
  contractNames_reset;;
  transactions ← getitem d "transactions";
  items ← iter transactions;
  for_in items loop_body.

(** The whole script. *)
Definition script (fs : gmap string string) : Script unit :=
  f ← open fs P;
  d ← (λ w, (json_load f, w)) : Script value;
  extract d.

(** ** Running the script *)

(** The state the interpreter starts from: nothing written yet. *)
Definition boot : world := World "" [].

Definition run (d : value) : result unit * world := extract d boot.

(** The loop alone, over the records [recs]. *)
Definition run_records (recs : list value) : result unit * world :=
  for_in recs loop_body boot.

(** ** Vocabulary of the statements *)

(** The list under the top-level key [transactions]. *)
Definition transactions_of (d : value) : option (list value) :=
  match subscript d "transactions" with
  | Returned (VList recs) => Some recs
  | _ => None
  end.

(** The contract name a record carries, when it is a [str]. *)
Definition name_of (k : value) : option string :=
  match subscript k "contractName" with
  | Returned (VStr s) => Some s
  | _ => None
  end.

Definition address_of (k : value) : option value :=
  match subscript k "contractAddress" with
  | Returned a => Some a
  | Raised _ => None
  end.

(** The text of the line for name [s] and address [a]. *)
Definition line (s : string) (a : value) : string :=
  (ljust s 12 +:+ " " +:+ str a) +:+ newline.

(** The lines of the pairs [printed], one after the other. *)
Definition render (printed : list (string * value)) : string :=
  foldr (λ p rest, line p.1 p.2 +:+ rest) "" printed.

(** The number of lines of a text: the number of its newline characters. *)
Fixpoint newlines (s : string) : nat :=
  match s with
  | "" => 0
  | String c rest => (if decide (c = "010"%char) then 1 else 0) + newlines rest
  end.

(** The text [s] is the beginning of the text [t]. *)
Definition begins (s t : string) : Prop := ∃ rest, t = s +:+ rest.

(** [k] is the record at index [i], it is named [s], and no record at a
    smaller index is. *)
Definition first_named (recs : list value) (s : string) (i : nat) (k : value) : Prop :=
  recs !! i = Some k ∧ name_of k = Some s ∧
  ∀ j k', j < i → recs !! j = Some k' → name_of k' ≠ Some s.


(** The number of distinct contract names among the records. *)
Definition distinct_names (recs : list value) : nat :=
  size (list_to_set (omap name_of recs) : gset string).

(** The world after the line for [s] and [a] has been printed and [s]
    recorded. *)
Definition emit (s : string) (a : value) (w : world) : world :=
  World (stdout w +:+ line s a) (contractNames w ++ [s]).

(** The world in which the lines of [printed] have been written and their
    names recorded, and nothing else. *)
Definition shown (printed : list (string * value)) : world :=
  World (render printed) printed.*1.

(** [printed] are the pairs of name and address that processing all of the
    records [recs] prints, and [idxs] the index of the record each one
    comes from: one pair per name, taken from the first record of that
    name, in the order of those records; and every record has a name that
    is text. *)
Record processed (recs : list value)
    (printed : list (string * value)) (idxs : list nat) : Prop := Processed {
  processed_nodup : NoDup (printed.*1);
  processed_first :
    Forall2 (λ p i, ∃ k, first_named recs p.1 i k ∧ address_of k = Some p.2)
            printed idxs;
  processed_sorted : StronglySorted lt idxs;
  processed_covered : ∀ k, k ∈ recs → ∃ s, name_of k = Some s ∧ s ∈ printed.*1
}.

(** How a run over the records [recs] ends, with result [r] and world
    [w]: the first [n] records were processed without exception and gave
    the pairs [printed]; if it raised, it raised on the record at index
    [n], leaving [partial] after the lines of [printed]. *)
Definition stands (recs : list value) (r : result unit) (w : world)
    (n : nat) (printed : list (string * value)) (idxs : list nat)
    (partial : string) : Prop :=
  n ≤ length recs ∧
  run_records (take n recs) = (Returned (), shown printed) ∧
  processed (take n recs) printed idxs ∧
  w = World (render printed +:+ partial) printed.*1 ∧
  match r with
  | Returned _ => n = length recs ∧ partial = ""
  | Raised e => ∃ k, recs !! n = Some k ∧
      loop_body k (shown printed) = (Raised e, w) ∧
      (partial = "" ∨
       e = UnicodeEncodeError ∧
       ∃ s, name_of k = Some s ∧ (s ∉ printed.*1) ∧ partial = ljust s 12 +:+ " ")
  end.

(** The value [v] is a [dict] without the key [key]: [v[key]] raises
    [KeyError]. *)
Definition lacks (key : string) (v : value) : Prop :=
  subscript v key = Raised (KeyError key).

(** A record that carries both keys, the name as text. *)
Definition complete (k : value) : Prop :=
  ∃ s a, name_of k = Some s ∧ address_of k = Some a.

(** The name field and the address of the record [k] can be written to
    standard output. *)
Definition printable (k : value) : Prop :=
  ∀ s a, name_of k = Some s → address_of k = Some a →
    encodable (ljust s 12) = true ∧ encodable (str a) = true.

(** Neither the name nor the address of the record [k] holds a newline. *)
Definition single_line (k : value) : Prop :=
  ∀ s a, name_of k = Some s → address_of k = Some a →
    newlines s = 0 ∧ newlines (str a) = 0.

(** The document that holds the records [recs] and nothing else. *)
Definition document (recs : list value) : value :=
  VDict {[ "transactions" := VList recs ]}.

(** The record [k] carries the name and the address of the pair [p]. *)
Definition carries (k : value) (p : string * value) : Prop :=
  name_of k = Some p.1 ∧ address_of k = Some p.2.

(** The record [k] repeats one of the names [seen]. *)
Definition repeats (seen : list string) (k : value) : Prop :=
  match name_of k with
  | Some s => s ∈ seen
  | None => False
  end.

#[global] Instance repeats_dec (seen : list string) (k : value) :
  Decision (repeats seen k).
Proof. unfold repeats. destruct (name_of k); apply _. Defined.

(** The records of [recs] that repeat none of the names [seen]. *)
Definition unseen (seen : list string) (recs : list value) : list value :=
  filter (λ k, ¬ repeats seen k) recs.

(** The world [w] with the output [out] and the names [seen] before its
    own. *)
Definition after (out : string) (seen : list string) (w : world) : world :=
  World (out +:+ stdout w) (seen ++ contractNames w).

(** The text [s] holds no space. *)
Definition no_space (s : string) : Prop :=
  " "%char ∉ String.list_ascii_of_string s.

(** A pair of a name and an address, both texts, that fits on a line:
    no space and no newline in the name, no newline in the address. *)
Definition plain (p : string * string) : Prop :=
  no_space p.1 ∧ newlines p.1 = 0 ∧ newlines p.2 = 0.

(** ** Sample inputs *)

Definition record (name address : string) : value :=
  VDict {[ "contractName" := VStr name; "contractAddress" := VStr address ]}.

(** A record with a name and no address. *)
Definition record_no_address (name : string) : value :=
  VDict {[ "contractName" := VStr name ]}.

(** A record with an address and no name. *)
Definition record_no_name (address : string) : value :=
  VDict {[ "contractAddress" := VStr address ]}.

(** A record whose name is [null], as a deployment tool writes for a
    transaction that creates no contract. *)
Definition record_null_name (address : string) : value :=
  VDict {[ "contractName" := VNone; "contractAddress" := VStr address ]}.

(** The example of the specification. *)
Definition sample_records : list value :=
  [ record "Token" "0xAA"; record "Vault" "0xBB"; record "Token" "0xCC" ].

(** The document of the example, with one more key next to the records. *)
Definition sample : value :=
  VDict {[ "transactions" := VList sample_records; "chain" := VInt 88882 ]}.

(** The second record repeats the name of the first and has no address. *)
Definition duplicate_without_address : list value :=
  [ record "Token" "0xAA"; record_no_address "Token"; record "Vault" "0xBB" ].

(** The third record has no name. *)
Definition nameless_third : list value :=
  [ record "Token" "0xAA"; record "Vault" "0xBB"; record_no_name "0xCC";
    record "Pool" "0xDD" ].

(** The sample with one more key in every record. *)
Definition annotated (name address hash : string) : value :=
  VDict {[ "contractName" := VStr name; "contractAddress" := VStr address;
           "hash" := VStr hash ]}.


(** An address of two lines: the text [0xBB], a newline, the text [proxy]. *)
Definition two_line_address : string := "0xBB" +:+ newline +:+ "proxy".

(** Two names, two records, and a newline inside the second address. *)
Definition newline_in_address : list value :=
  [ record "Token" "0xAA"; record "Vault" two_line_address ].




(** Two names, and no address in the second record. *)
Definition addressless_second : list value :=
  [ record "Token" "0xAA"; record_no_address "Vault" ].

(** A parser for the sample runs: whatever the text, the sample document. *)
Definition json_load_sample (text : string) : result value := Returned sample.

(** A conversion to text for the sample runs: exact on [None] and on the
    booleans, a placeholder on the values the samples never print. *)
Definition str_sample (v : value) : string :=
  match v with
  | VNone => "None"
  | VBool true => "True"
  | VBool false => "False"
  | _ => "<object>"
  end.

(** Standard output encoded in ASCII, as under the C locale: the texts it
    encodes are those made of characters below 128. *)
Definition encodable_ascii (text : string) : bool :=
  forallb (λ c, bool_decide (nat_of_ascii c < 128)) (String.list_ascii_of_string text).

(** ** Facts about text *)

Lemma append_nil (t : string) : "" +:+ t = t.
Proof. done. Qed.

Lemma append_cons (c : ascii) (s t : string) :
  String c s +:+ t = String c (s +:+ t).
Proof. done. Qed.

Lemma append_nil_r (s : string) : s +:+ "" = s.
Proof. induction s as [|c s IH]; [done|]. rewrite append_cons. by f_equal. Qed.

Lemma append_assoc (s t u : string) : (s +:+ t) +:+ u = s +:+ (t +:+ u).
Proof.
  induction s as [|c s IH]; [done|]. rewrite !append_cons. by f_equal.
Qed.

Lemma length_append (s t : string) :
  String.length (s +:+ t) = String.length s + String.length t.
Proof.
  induction s as [|c s IH]; [done|]. rewrite append_cons. simpl. by rewrite IH.
Qed.

Lemma length_spaces (n : nat) : String.length (spaces n) = n.
Proof. unfold spaces. induction n as [|n IH]; simpl; [done|]. by rewrite IH. Qed.

Lemma newlines_append (s t : string) :
  newlines (s +:+ t) = newlines s + newlines t.
Proof.
  induction s as [|c s IH]; [done|]. rewrite append_cons. simpl.
  rewrite IH. lia.
Qed.

Lemma newlines_spaces (n : nat) : newlines (spaces n) = 0.
Proof. unfold spaces. induction n as [|n IH]; simpl; [done|]. by rewrite IH. Qed.

Lemma newlines_ljust (s : string) (width : nat) :
  newlines (ljust s width) = newlines s.
Proof.
  unfold ljust. case_decide; [done|].
  rewrite newlines_append, newlines_spaces. lia.
Qed.

Lemma newlines_line (s : string) (a : value) :
  newlines (line s a) = newlines s + newlines (str a) + 1.
Proof.
  unfold line. rewrite !newlines_append, newlines_ljust. simpl. lia.
Qed.

Lemma begins_refl (s : string) : begins s s.
Proof. exists "". by rewrite append_nil_r. Qed.

Lemma begins_trans (s t u : string) : begins s t → begins t u → begins s u.
Proof. intros [r ->] [r' ->]. exists (r +:+ r'). by rewrite append_assoc. Qed.

Lemma begins_append (s t : string) : begins s (s +:+ t).
Proof. by exists t. Qed.

Lemma render_app (l1 l2 : list (string * value)) :
  render (l1 ++ l2) = render l1 +:+ render l2.
Proof.
  induction l1 as [|p l1 IH]; simpl; [done|]. by rewrite IH, append_assoc.
Qed.

Lemma render_snoc (l : list (string * value)) (s : string) (a : value) :
  render (l ++ [(s, a)]) = render l +:+ line s a.
Proof. rewrite render_app. simpl. by rewrite append_nil_r. Qed.

(** ** Basic facts about the loop *)

Lemma for_in_app (l1 l2 : list value) (body : value → Script unit) (w : world) :
  for_in (l1 ++ l2) body w =
    match for_in l1 body w with
    | (Returned _, w') => for_in l2 body w'
    | (Raised e, w') => (Raised e, w')
    end.
Proof.
  revert w. induction l1 as [|k l1 IH]; intros w; simpl; [done|].
  unfold mbind, Script_bind.
  destruct (body k w) as [[[]|e] w']; [apply IH | done].
Qed.

Lemma for_in_single (k : value) (body : value → Script unit) (w : world) :
  for_in [k] body w = body k w.
Proof.
  simpl. unfold mbind, Script_bind.
  by destruct (body k w) as [[[]|e] w'].
Qed.

Lemma for_in_cons (k : value) (l : list value) (body : value → Script unit)
    (w : world) :
  for_in (k :: l) body w =
    match body k w with
    | (Returned _, w') => for_in l body w'
    | (Raised e, w') => (Raised e, w')
    end.
Proof. done. Qed.

(** [print] on the name field and the address: the field, a space, the
    address and a newline, or [UnicodeEncodeError] at the first of the two
    texts that cannot be encoded, with what comes before it written. *)
Lemma print_pair (field : string) (a : value) (w : world) :
  print [VStr field; a] w =
    if encodable field then
      if encodable (str a) then
        (Returned (), World (stdout w +:+ (field +:+ " " +:+ str a) +:+ newline)
                            (contractNames w))
      else (Raised UnicodeEncodeError,
            World (stdout w +:+ field +:+ " ") (contractNames w))
    else (Raised UnicodeEncodeError, w).
Proof.
  unfold print, print_rest, write, write_ascii, mbind, Script_bind, mret, Script_ret.
  simpl. destruct (encodable field); [|done]. simpl.
  destruct (encodable (str a)); simpl.
  - by rewrite !append_assoc.
  - by rewrite !append_assoc.
Qed.

(** The body of the loop, case by case. *)
Lemma loop_body_unfold (k : value) (w : world) :
  loop_body k w =
    match subscript k "contractName" with
    | Raised e => (Raised e, w)
    | Returned (VStr s) =>
        if decide (s ∈ contractNames w) then (Returned (), w)
        else match subscript k "contractAddress" with
             | Returned a =>
                 if encodable (ljust s 12) then
                   if encodable (str a) then (Returned (), emit s a w)
                   else (Raised UnicodeEncodeError,
                         World (stdout w +:+ ljust s 12 +:+ " ") (contractNames w))
                 else (Raised UnicodeEncodeError, w)
             | Raised e => (Raised e, w)
             end
    | Returned _ => (Raised (AttributeError "ljust"), w)
    end.
Proof.
  unfold loop_body, getitem, not_in_contractNames.
  unfold mbind at 1 2, Script_bind at 1 2.
  destruct (subscript k "contractName") as [[]|e]; try done.
  destruct (decide (s ∈ contractNames w)) as [Hin|Hin].
  - by rewrite bool_decide_eq_false_2 by (by intros ?).
  - rewrite bool_decide_eq_true_2 by done.
    unfold mbind at 1, Script_bind at 1.
    destruct (subscript k "contractAddress") as [a|e]; [|done].
    unfold mbind, Script_bind. rewrite print_pair.
    destruct (encodable (ljust s 12)); [|done].
    by destruct (encodable (str a)).
Qed.

(** An item that is text, as the keys of a [dict] and the characters of a
    [str] are, cannot be subscripted with a key: the loop over such items
    raises on the first one. *)
Lemma for_in_text (items : list string) (w : world) :
  for_in (VStr <$> items) loop_body w =
    match items with
    | [] => (Returned (), w)
    | _ :: _ => (Raised TypeError, w)
    end.
Proof. by destruct items. Qed.

(** How the body of the loop raises: the names are left as they were, and
    the output too, but for the name field and the space of a record whose
    address cannot be encoded. *)
Lemma loop_body_raised (k : value) (w w' : world) (e : exn) :
  loop_body k w = (Raised e, w') →
  ∃ partial,
    w' = World (stdout w +:+ partial) (contractNames w) ∧
    (partial = "" ∨
     e = UnicodeEncodeError ∧
     ∃ s, name_of k = Some s ∧ (s ∉ contractNames w) ∧ partial = ljust s 12 +:+ " ").
Proof.
  rewrite loop_body_unfold. unfold name_of. intros H.
  destruct w as [out seen]. simpl in *.
  repeat (case_match; simplify_eq);
    try (exists ""; rewrite append_nil_r; by eauto).
  eexists. split; [done|]. right. eauto.
Qed.

Lemma run_transactions (d : value) (recs : list value) :
  transactions_of d = Some recs → run d = run_records recs.
Proof.
  unfold transactions_of, run, run_records, extract. intros H.
  unfold mbind, Script_bind, getitem, contractNames_reset. simpl.
  destruct (subscript d "transactions") as [[]|]; simplify_eq. done.
Qed.

Lemma transactions_of_document (recs : list value) :
  transactions_of (document recs) = Some recs.
Proof. unfold transactions_of, document. simpl. by rewrite lookup_singleton_eq. Qed.

Lemma run_document (recs : list value) : run (document recs) = run_records recs.
Proof. apply run_transactions, transactions_of_document. Qed.

Lemma name_of_Some (k : value) (s : string) :
  name_of k = Some s ↔ subscript k "contractName" = Returned (VStr s).
Proof.
  unfold name_of. split; [|by intros ->].
  intros H. by repeat (case_match; simplify_eq).
Qed.

Lemma address_of_Some (k : value) (a : value) :
  address_of k = Some a ↔ subscript k "contractAddress" = Returned a.
Proof.
  unfold address_of. split; [|by intros ->].
  intros H. by repeat (case_match; simplify_eq).
Qed.



(** ** The first record of a name *)

Lemma first_named_unique (recs : list value) (s : string) (i j : nat) (k k' : value) :
  first_named recs s i k → first_named recs s j k' → i = j ∧ k = k'.
Proof.
  intros (Hi & Hs & Hmin) (Hj & Hs' & Hmin').
  assert (i = j) as ->.
  { destruct (Nat.lt_trichotomy i j) as [Hlt|[->|Hlt]]; [|done|].
    - by destruct (Hmin' i k Hlt Hi).
    - by destruct (Hmin j k' Hlt Hj). }
  split; congruence.
Qed.

Lemma first_named_lt (recs : list value) (s : string) (i : nat) (k : value) :
  first_named recs s i k → i < length recs.
Proof. intros (Hi & _). by eapply lookup_lt_Some. Qed.

Lemma first_named_app_l (l l' : list value) (s : string) (i : nat) (k : value) :
  first_named l s i k → first_named (l ++ l') s i k.
Proof.
  intros (Hi & Hs & Hmin). split_and!; [|done|].
  - by apply lookup_app_l_Some.
  - intros j k' Hlt Hj. apply (Hmin j k' Hlt).
    rewrite lookup_app_l in Hj; [done|].
    apply lookup_lt_Some in Hi. lia.
Qed.

Lemma first_named_take (n : nat) (l : list value) (s : string) (i : nat) (k : value) :
  first_named (take n l) s i k → first_named l s i k.
Proof.
  intros H. rewrite <-(take_drop n l). by apply first_named_app_l.
Qed.

(** A name that no record of [l] carries is first met in the record that
    follows them. *)
Lemma first_named_snoc (l : list value) (s : string) (k : value) :
  name_of k = Some s →
  (∀ k', k' ∈ l → name_of k' ≠ Some s) →
  first_named (l ++ [k]) s (length l) k.
Proof.
  intros Hs Hnew. split_and!; [|done|].
  - by rewrite lookup_app_r, Nat.sub_diag.
  - intros j k' Hlt Hj. rewrite lookup_app_l in Hj by done.
    apply Hnew. by eapply list_elem_of_lookup_2.
Qed.

(** ** One step of the loop keeps [processed] *)

Lemma processed_boot : processed [] [] [].
Proof.
  split; simpl; try done; try constructor.
  intros k Hk. by apply elem_of_nil in Hk.
Qed.

(** A record whose name was met before changes nothing. *)
Lemma processed_skip (l : list value) printed idxs (k : value) (s : string) :
  processed l printed idxs →
  name_of k = Some s → s ∈ printed.*1 →
  processed (l ++ [k]) printed idxs.
Proof.
  intros [Hnodup Hfirst Hsorted Hcov] Hs Hin.
  split; try done.
  - eapply Forall2_impl; [exact Hfirst|].
    intros p i (k' & Hk' & Ha). exists k'. split; [|done].
    by apply first_named_app_l.
  - intros k' [Hk'| ->%list_elem_of_singleton]%elem_of_app; [by apply Hcov|].
    by exists s.
Qed.

(** A record with a new name and an address adds one pair. *)
Lemma processed_emit (l : list value) printed idxs
    (k : value) (s : string) (a : value) :
  processed l printed idxs →
  name_of k = Some s → s ∉ printed.*1 → address_of k = Some a →
  processed (l ++ [k]) (printed ++ [(s, a)]) (idxs ++ [length l]).
Proof.
  intros [Hnodup Hfirst Hsorted Hcov] Hs Hnew Ha.
  assert (∀ k', k' ∈ l → name_of k' ≠ Some s) as Hfresh.
  { intros k' Hk' Hs'. destruct (Hcov k' Hk') as (s' & Hs'' & Hin). congruence. }
  split; simpl.
  - rewrite fmap_app. simpl. apply NoDup_app. split_and!; [done| |apply NoDup_singleton].
    by intros x Hx ->%list_elem_of_singleton.
  - apply Forall2_app.
    + eapply Forall2_impl; [exact Hfirst|].
      intros p i (k' & Hk' & Ha'). exists k'. split; [|done].
      by apply first_named_app_l.
    + repeat constructor. exists k. split; [|done]. by apply first_named_snoc.
  - apply StronglySorted_app_2; [|done|repeat constructor].
    intros i j Hi ->%list_elem_of_singleton.
    apply list_elem_of_lookup in Hi as [p Hp].
    destruct (Forall2_lookup_r _ _ _ _ _ Hfirst Hp) as (q & _ & k' & Hk' & _).
    by eapply first_named_lt.
  - intros k' [Hk'| ->%list_elem_of_singleton]%elem_of_app.
    + destruct (Hcov k' Hk') as (s' & Hs' & Hin). exists s'. split; [done|].
      rewrite fmap_app. apply elem_of_app. by left.
    + exists s. split; [done|]. rewrite fmap_app. apply elem_of_app. right.
      by apply list_elem_of_singleton.
Qed.

Lemma emit_shown (printed : list (string * value)) (s : string) (a : value) :
  emit s a (shown printed) = shown (printed ++ [(s, a)]).
Proof. unfold emit, shown. simpl. by rewrite render_snoc, fmap_app. Qed.

(** ** Where a run stands when it ends *)

Lemma run_records_snoc (l : list value) (k : value) :
  run_records (l ++ [k]) =
    match run_records l with
    | (Returned _, w) => loop_body k w
    | (Raised e, w) => (Raised e, w)
    end.
Proof.
  unfold run_records. rewrite for_in_app.
  destruct (for_in l loop_body boot) as [[[]|e] w]; [|done].
  apply for_in_single.
Qed.

(** Every run of the loop ends after having processed some first part of
    the records without exception: all of them when it returns, the records
    before the failing one when it raises. *)
Lemma run_records_prefix (recs : list value) :
  ∃ n printed idxs partial,
    stands recs (run_records recs).1 (run_records recs).2 n printed idxs partial.
Proof.
  induction recs as [|k l IH] using rev_ind.
  { exists 0, [], [], "". split_and!; try done. apply processed_boot. }
  destruct IH as (n & printed & idxs & partial & Hn & Hrun & Hinv & Hw & Hend).
  unfold stands. rewrite run_records_snoc.
  destruct (run_records l) as [[[]|e] w] eqn:Hl; simpl in *.
  - (* the records before [k] went through *)
    destruct Hend as [-> ->]. rewrite firstn_all in Hinv, Hrun.
    rewrite append_nil_r in Hw. fold (shown printed) in Hw. subst w.
    destruct (loop_body k (shown printed)) as [[[]|e] w'] eqn:Hbody.
    + (* [k] is processed too *)
      rewrite loop_body_unfold in Hbody.
      destruct (subscript k "contractName") as [[| | | |s| |]|] eqn:Hname;
        try done.
      assert (name_of k = Some s) as Hs by (by apply name_of_Some).
      simpl in Hbody. destruct (decide (s ∈ printed.*1)) as [Hin|Hnew].
      * simplify_eq. exists (length (l ++ [k])), printed, idxs, "".
        split_and!; simpl; try done.
        -- rewrite firstn_all, run_records_snoc, Hl, loop_body_unfold, Hname.
           simpl. by rewrite decide_True.
        -- rewrite firstn_all. by eapply processed_skip.
        -- by rewrite append_nil_r.
      * destruct (subscript k "contractAddress") as [a|] eqn:Haddr; [|done].
        destruct (encodable (ljust s 12)) eqn:Hfield; [|done].
        destruct (encodable (str a)) eqn:Htext; [|done].
        simplify_eq. rewrite emit_shown.
        exists (length (l ++ [k])), (printed ++ [(s, a)]), (idxs ++ [length l]), "".
        split_and!; simpl; try done.
        -- rewrite firstn_all, run_records_snoc, Hl, loop_body_unfold, Hname.
           simpl. by rewrite decide_False, Haddr, Hfield, Htext, emit_shown.
        -- rewrite firstn_all. apply processed_emit; try done.
           by apply address_of_Some.
        -- unfold shown. by rewrite append_nil_r.
    + (* [k] raises *)
      destruct (loop_body_raised _ _ _ _ Hbody) as (partial & -> & Hpartial).
      exists (length l), printed, idxs, partial.
      rewrite length_app, take_app_length. simpl.
      split_and!; [lia|done|done|done|].
      exists k. split; [by rewrite lookup_app_r, Nat.sub_diag|]. by split.
  - (* an earlier record raised *)
    destruct Hend as (k' & Hk' & Hraise & Hpartial).
    assert (n < length l) by (by eapply lookup_lt_Some).
    exists n, printed, idxs, partial. rewrite length_app.
    split_and!; [lia|by rewrite take_app_le by lia|by rewrite take_app_le by lia|done|].
    exists k'. split; [by apply lookup_app_l_Some|done].
Qed.

Lemma run_records_returned (recs : list value) (w : world) :
  run_records recs = (Returned (), w) →
  ∃ printed idxs, w = shown printed ∧ processed recs printed idxs.
Proof.
  intros Hrun.
  destruct (run_records_prefix recs)
    as (n & printed & idxs & partial & _ & _ & Hinv & Hw & Hend).
  rewrite Hrun in Hw, Hend. simpl in *. destruct Hend as [-> ->].
  rewrite firstn_all in Hinv. rewrite append_nil_r in Hw. eauto.
Qed.

(** The world a run of the script ends in, in terms of the first part of
    the records it processed. *)
Lemma run_stands (d : value) (recs : list value) :
  transactions_of d = Some recs →
  ∃ n printed idxs partial, stands recs (run d).1 (run d).2 n printed idxs partial.
Proof. intros ->%run_transactions. apply run_records_prefix. Qed.

Lemma sorted_lookup_lt (l : list nat) (p q x y : nat) :
  StronglySorted lt l → l !! p = Some x → l !! q = Some y → p < q → x < y.
Proof.
  intros Hsorted Hp Hq Hlt.
  rewrite <-(take_drop q l) in Hsorted.
  eapply (StronglySorted_app_1_elem_of _ _ _ _ _ Hsorted).
  - apply list_elem_of_lookup. exists p. by rewrite lookup_take_lt.
  - apply list_elem_of_lookup. exists 0. by rewrite lookup_drop, Nat.add_0_r.
Qed.

(** Where a pair of [printed] comes from. *)
Lemma processed_lookup (recs : list value) printed idxs
    (p : nat) (s : string) (a : value) :
  processed recs printed idxs → printed !! p = Some (s, a) →
  ∃ i k, idxs !! p = Some i ∧ first_named recs s i k ∧ address_of k = Some a.
Proof.
  intros [_ Hfirst _ _] Hp.
  destruct (Forall2_lookup_l _ _ _ _ _ Hfirst Hp) as (i & Hi & k & Hk & Ha).
  by exists i, k.
Qed.

(** Every name carried by a processed record has its pair. *)
Lemma processed_named (recs : list value) printed idxs (k : value) (s : string) :
  processed recs printed idxs → k ∈ recs → name_of k = Some s →
  ∃ p a, printed !! p = Some (s, a).
Proof.
  intros Hinv Hk Hs.
  destruct (processed_covered _ _ _ Hinv k Hk) as (s' & Hs' & Hin).
  assert (s' = s) as -> by congruence.
  apply list_elem_of_fmap in Hin as ([s' a] & -> & Hin).
  apply list_elem_of_lookup in Hin as [p Hp]. eauto.
Qed.

(** The pair of a name is the pair of its first record. *)
Lemma processed_first_named (recs : list value) printed idxs
    (s : string) (i : nat) (k : value) :
  processed recs printed idxs → first_named recs s i k →
  ∃ p a, printed !! p = Some (s, a) ∧ idxs !! p = Some i ∧ address_of k = Some a.
Proof.
  intros Hinv Hfirst.
  destruct (processed_named _ _ _ k s Hinv) as (p & a & Hp);
    [eapply list_elem_of_lookup_2; apply Hfirst|apply Hfirst|].
  destruct (processed_lookup _ _ _ _ _ _ Hinv Hp) as (i' & k' & Hi' & Hfirst' & Ha).
  destruct (first_named_unique _ _ _ _ _ _ Hfirst' Hfirst) as [-> ->].
  by exists p, a.
Qed.

(** The order of the pairs is the order of the first records. *)
Lemma processed_order (recs : list value) printed idxs
    (p q i j : nat) (A B : string) (a b : value) (kA kB : value) :
  processed recs printed idxs →
  printed !! p = Some (A, a) → printed !! q = Some (B, b) →
  first_named recs A i kA → first_named recs B j kB →
  p < q ↔ i < j.
Proof.
  intros Hinv Hp Hq HA HB.
  destruct (processed_lookup _ _ _ _ _ _ Hinv Hp) as (i' & k1 & Hi & H1 & _).
  destruct (processed_lookup _ _ _ _ _ _ Hinv Hq) as (j' & k2 & Hj & H2 & _).
  destruct (first_named_unique _ _ _ _ _ _ H1 HA) as [-> _].
  destruct (first_named_unique _ _ _ _ _ _ H2 HB) as [-> _].
  pose proof (processed_sorted _ _ _ Hinv) as Hsorted.
  split.
  - intros Hlt. by eapply sorted_lookup_lt.
  - intros Hlt. destruct (Nat.lt_trichotomy p q) as [?|[->|Hqp]]; [done| |].
    + rewrite Hi in Hj. simplify_eq. lia.
    + pose proof (sorted_lookup_lt _ _ _ _ _ Hsorted Hj Hi Hqp). lia.
Qed.

(** Records that carry both keys and whose texts can be written are
    processed without exception. *)
Lemma complete_returns (d : value) (recs : list value) :
  transactions_of d = Some recs →
  Forall complete recs → Forall printable recs →
  (run d).1 = Returned ().
Proof.
  intros Htx Hcomplete Hprintable.
  destruct (run_stands d recs Htx) as (n & printed & idxs & partial & _ & _ & _ & _ & Hend).
  destruct (run d).1 as [[]|e]; [done|]. exfalso.
  destruct Hend as (k & Hk & Hraise & _).
  assert (k ∈ recs) as Hin by (by eapply list_elem_of_lookup_2).
  assert (complete k) as (s & a & Hs & Ha) by (by eapply Forall_forall).
  assert (printable k) as Hp by (by eapply Forall_forall).
  destruct (Hp s a Hs Ha) as [Hfield Htext].
  apply name_of_Some in Hs. apply address_of_Some in Ha.
  rewrite loop_body_unfold, Hs, Ha, Hfield, Htext in Hraise.
  by case_decide.
Qed.

(** The loop only ever adds to the output and to the list of names. *)
Lemma for_in_grows (l : list value) (w w' : world) (r : result unit) :
  for_in l loop_body w = (r, w') →
  begins (stdout w) (stdout w') ∧ contractNames w `prefix_of` contractNames w'.
Proof.
  revert w. induction l as [|k l IH]; intros w.
  { intros [= _ <-]. split; [apply begins_refl|done]. }
  rewrite for_in_cons.
  destruct (loop_body k w) as [[[]|e] w1] eqn:Hbody.
  - intros [Hout Hnames]%IH. rewrite loop_body_unfold in Hbody.
    assert (begins (stdout w) (stdout w1) ∧
            contractNames w `prefix_of` contractNames w1) as [Hout1 Hnames1].
    { repeat (case_match; simplify_eq); simpl;
        first [ split; [apply begins_refl|done]
              | split; [apply begins_append|by apply prefix_app_r] ]. }
    split; [by eapply begins_trans|by etrans].
  - intros [= <- <-].
    destruct (loop_body_raised _ _ _ _ Hbody) as (partial & -> & _). simpl.
    split; [apply begins_append|done].
Qed.

(** The run passes through the world reached after any first part of the
    records. *)
Lemma run_records_split (n : nat) (recs : list value) :
  run_records recs =
    match run_records (take n recs) with
    | (Returned _, w) => for_in (drop n recs) loop_body w
    | (Raised e, w) => (Raised e, w)
    end.
Proof.
  unfold run_records. by rewrite <-(take_drop n recs) at 1; rewrite for_in_app.
Qed.

Lemma run_records_take_grows (n : nat) (recs : list value) :
  begins (stdout (run_records (take n recs)).2) (stdout (run_records recs).2) ∧
  contractNames (run_records (take n recs)).2
    `prefix_of` contractNames (run_records recs).2.
Proof.
  rewrite (run_records_split n recs).
  destruct (run_records (take n recs)) as [[[]|e] w]; [|split; [apply begins_refl|done]].
  destruct (for_in (drop n recs) loop_body w) as [r w'] eqn:Hrest.
  by eapply for_in_grows.
Qed.

(** ** First record wins *)

(** C1. The output is the lines of a list [printed] of name and address
    pairs, the names being those of [contractNames], in which no name occurs
    twice and the address paired with a name is the address of the record at
    the smallest index among the records carrying that name. After these
    lines comes nothing, or, when [print] could not encode an address, the
    name field and the space of that record, which is no line of any name.
    When the run returns, every name carried by a record has its line. *)
Theorem first_record_wins (d : value) (recs : list value) :
  transactions_of d = Some recs →
  ∃ (printed : list (string * value)) (partial : string),
    stdout (run d).2 = render printed +:+ partial ∧
    contractNames (run d).2 = printed.*1 ∧
    NoDup printed.*1 ∧
    (∀ s a, (s, a) ∈ printed →
       ∃ i k, first_named recs s i k ∧ address_of k = Some a) ∧
    (partial = "" ∨
     (run d).1 = Raised UnicodeEncodeError ∧
     ∃ s, (s ∉ printed.*1) ∧ partial = ljust s 12 +:+ " ") ∧
    ((run d).1 = Returned () →
       partial = "" ∧
       ∀ k s, k ∈ recs → name_of k = Some s → s ∈ printed.*1).
Proof.
  intros (n & printed & idxs & partial & _ & _ & Hinv & Hw & Hend)%run_stands.
  exists printed, partial. rewrite Hw. simpl. split_and!; [done|done|apply Hinv| | |].
  - intros s a [p Hp]%list_elem_of_lookup.
    destruct (processed_lookup _ _ _ _ _ _ Hinv Hp) as (i & k & _ & ? & ?).
    exists i, k. split; [|done]. by eapply first_named_take.
  - destruct (run d).1 as [[]|e]; [left; apply Hend|].
    destruct Hend as (k & _ & _ & [->|(-> & s & _ & Hs & ->)]); [by left|].
    right. split; [done|]. by exists s.
  - intros Hret. rewrite Hret in Hend. destruct Hend as [-> ->].
    rewrite firstn_all in Hinv. split; [done|].
    intros k s Hk Hs.
    destruct (processed_covered _ _ _ Hinv k Hk) as (s' & Hs' & Hin).
    congruence.
Qed.

(** ** Order of the lines *)

(** C2. The output is the lines of a list [printed] of name and address
    pairs, the names being those of [contractNames], followed by no further
    line. No name occurs twice in [printed], every pair is the name and the
    address of the first record of its name, and the pairs stand in the
    order of those first records: the pair of [A] comes before the pair of
    [B] exactly when [A] first appears at a smaller index than [B]. When [A]
    first appears before [B] and [B] has its line, [A] has its line, before
    it; when the run returns every name that appears has its line. *)
Theorem first_appearance_order (d : value) (recs : list value) :
  transactions_of d = Some recs →
  ∃ (printed : list (string * value)) (partial : string),
    stdout (run d).2 = render printed +:+ partial ∧
    contractNames (run d).2 = printed.*1 ∧
    NoDup printed.*1 ∧
    (partial = "" ∨ ∃ s, (s ∉ printed.*1) ∧ partial = ljust s 12 +:+ " ") ∧
    (∀ p A a, printed !! p = Some (A, a) →
       ∃ i kA, first_named recs A i kA ∧ address_of kA = Some a) ∧
    (∀ p q A B a b i j kA kB,
       printed !! p = Some (A, a) → printed !! q = Some (B, b) →
       first_named recs A i kA → first_named recs B j kB →
       (p < q ↔ i < j)) ∧
    (∀ A B i j kA kB q b,
       first_named recs A i kA → first_named recs B j kB → i < j →
       printed !! q = Some (B, b) →
       ∃ p a, p < q ∧ printed !! p = Some (A, a)) ∧
    ((run d).1 = Returned () →
       partial = "" ∧
       ∀ A i kA, first_named recs A i kA → ∃ p a, printed !! p = Some (A, a)).
Proof.
  intros (n & printed & idxs & partial & _ & _ & Hinv & Hw & Hend)%run_stands.
  exists printed, partial. rewrite Hw. simpl.
  assert (∀ p A a, printed !! p = Some (A, a) →
            ∃ i kA, idxs !! p = Some i ∧ first_named (take n recs) A i kA ∧
                    first_named recs A i kA ∧ address_of kA = Some a) as Hfrom.
  { intros p A a Hp.
    destruct (processed_lookup _ _ _ _ _ _ Hinv Hp) as (i & k & Hi & Hfirst & Ha).
    exists i, k. split_and!; try done. by eapply first_named_take. }
  split_and!; [done|done|apply Hinv| | | | |].
  - destruct (run d).1 as [[]|e]; [left; apply Hend|].
    destruct Hend as (k & _ & _ & [->|(-> & s & _ & Hs & ->)]); [by left|].
    right. by exists s.
  - intros p A a Hp. destruct (Hfrom p A a Hp) as (i & kA & _ & _ & HA & Ha). eauto.
  - intros p q A B a b i j kA kB Hp Hq HA HB.
    destruct (Hfrom p A a Hp) as (i' & kA' & _ & HA' & HA'' & _).
    destruct (Hfrom q B b Hq) as (j' & kB' & _ & HB' & HB'' & _).
    destruct (first_named_unique _ _ _ _ _ _ HA'' HA) as [-> ->].
    destruct (first_named_unique _ _ _ _ _ _ HB'' HB) as [-> ->].
    by eapply processed_order.
  - intros A B i j kA kB q b HA HB Hlt Hq.
    destruct (Hfrom q B b Hq) as (j' & kB' & _ & HB' & HB'' & _).
    destruct (first_named_unique _ _ _ _ _ _ HB'' HB) as [-> ->].
    assert (first_named (take n recs) A i kA) as HA'.
    { destruct HA as (HkA & HnA & HminA). split_and!; [|done|].
      - rewrite lookup_take_lt; [done|].
        apply first_named_lt in HB'. rewrite length_take in HB'. lia.
      - intros j' k' Hj' Hk'. apply (HminA j' k' Hj').
        rewrite lookup_take_Some in Hk'. apply Hk'. }
    destruct (processed_first_named _ _ _ _ _ _ Hinv HA') as (p & a & Hp & _ & _).
    exists p, a. split; [|done].
    by apply (processed_order _ _ _ p q i j A B a b kA kB Hinv Hp Hq HA' HB').
  - intros Hret. rewrite Hret in Hend. destruct Hend as [-> ->].
    rewrite firstn_all in Hinv. split; [done|].
    intros A i kA HA.
    destruct (processed_first_named _ _ _ _ _ _ Hinv HA) as (p & a & Hp & _).
    eauto.
Qed.

(** ** Number of lines *)

(** The lines of [printed] hold one newline each, and those inside the
    names and the addresses. *)
Lemma newlines_render_ge (printed : list (string * value)) :
  length printed ≤ newlines (render printed).
Proof.
  induction printed as [|[s a] printed IH]; simpl; [done|].
  rewrite newlines_append, newlines_line. lia.
Qed.

Lemma newlines_render (printed : list (string * value)) :
  (∀ s a, (s, a) ∈ printed → newlines s = 0 ∧ newlines (str a) = 0) →
  newlines (render printed) = length printed.
Proof.
  induction printed as [|[s a] printed IH]; intros Hfree; simpl; [done|].
  rewrite newlines_append, newlines_line, IH.
  - destruct (Hfree s a) as [-> ->]; [left|]. lia.
  - intros s' a' Hin. apply Hfree. by right.
Qed.

(** The pairs printed by records that are all processed are as many as the
    distinct names of the records. *)
Lemma processed_length (recs : list value) printed idxs :
  processed recs printed idxs → length printed = distinct_names recs.
Proof.
  intros Hinv. rewrite <-(length_fmap fst printed). unfold distinct_names.
  rewrite <-(size_list_to_set (C := gset string) printed.*1) by apply Hinv.
  f_equal. apply set_eq. intros s. rewrite !elem_of_list_to_set, list_elem_of_omap.
  split.
  - intros ([s' a] & -> & [p Hp]%list_elem_of_lookup)%list_elem_of_fmap.
    destruct (processed_lookup _ _ _ _ _ _ Hinv Hp) as (i & k & _ & (Hk & Hs & _) & _).
    exists k. split; [by eapply list_elem_of_lookup_2|done].
  - intros (k & Hk & Hs).
    destruct (processed_covered _ _ _ Hinv k Hk) as (s' & Hs' & Hin). congruence.
Qed.

Lemma processed_single_line (recs : list value) printed idxs :
  processed recs printed idxs → Forall single_line recs →
  ∀ s a, (s, a) ∈ printed → newlines s = 0 ∧ newlines (str a) = 0.
Proof.
  intros Hinv Hsingle s a [p Hp]%list_elem_of_lookup.
  destruct (processed_lookup _ _ _ _ _ _ Hinv Hp) as (i & k & _ & (Hk & Hs & _) & Ha).
  assert (single_line k) as Hline.
  { eapply Forall_forall; [exact Hsingle|]. by eapply list_elem_of_lookup_2. }
  by apply Hline.
Qed.

(** C3, as the script has it. When the run returns, the output holds at
    least as many lines as there are distinct contract names among the
    records, and exactly as many when no name and no address holds a
    newline. The run returns when every record carries both keys and its
    texts can be encoded; with no record at all the run returns and has
    written nothing. *)
Theorem one_line_per_name (d : value) (recs : list value) :
  transactions_of d = Some recs →
  ((run d).1 = Returned () →
     distinct_names recs ≤ newlines (stdout (run d).2) ∧
     (Forall single_line recs →
        newlines (stdout (run d).2) = distinct_names recs)) ∧
  (Forall complete recs → Forall printable recs → (run d).1 = Returned ()) ∧
  (recs = [] → run d = (Returned (), boot)).
Proof.
  intros Htx. split_and!; [|by apply complete_returns|].
  2: { apply run_transactions in Htx as ->. by intros ->. }
  apply run_transactions in Htx as ->. intros Hret.
  destruct (run_records recs) as [[[]|e] w] eqn:Hrun; simplify_eq/=.
  destruct (run_records_returned _ _ Hrun) as (printed & idxs & -> & Hinv).
  simpl. rewrite <-(processed_length _ _ _ Hinv). split.
  - apply newlines_render_ge.
  - intros Hsingle. apply newlines_render. by eapply processed_single_line.
Qed.

(** ** Format of a line *)

Lemma ljust_short (s : string) (width : nat) :
  String.length s < width →
  ljust s width = s +:+ spaces (width - String.length s) ∧
  String.length (ljust s width) = width.
Proof.
  intros Hlt. unfold ljust. rewrite decide_False by lia.
  split; [done|]. rewrite length_append, length_spaces. lia.
Qed.

Lemma ljust_long (s : string) (width : nat) :
  width ≤ String.length s → ljust s width = s.
Proof. intros Hle. unfold ljust. by rewrite decide_True. Qed.

(** C4. The output is the lines of a list [printed] of name and address
    pairs, one line after the other, followed by nothing or by the name
    field and the space of a record whose address could not be encoded.
    Every pair comes from a record of the transactions, and its line is the
    name of that record left-justified to 12 characters, one space, the
    address of the record (as it stands when it is text) and a newline. The
    name field has at least 12 characters: a shorter name is followed by
    spaces up to exactly 12, a name of 12 characters or more is printed as
    it is. *)
Theorem line_format (d : value) (recs : list value) :
  transactions_of d = Some recs →
  ∃ (printed : list (string * value)) (partial : string),
    stdout (run d).2 = foldr (λ p rest, line p.1 p.2 +:+ rest) "" printed +:+ partial ∧
    contractNames (run d).2 = printed.*1 ∧
    (partial = "" ∨ ∃ s, (s ∉ printed.*1) ∧ partial = ljust s 12 +:+ " ") ∧
    ∀ s a, (s, a) ∈ printed →
      ∃ k,
        k ∈ recs ∧ name_of k = Some s ∧ address_of k = Some a ∧
        line s a = (ljust s 12 +:+ " " +:+ str a) +:+ newline ∧
        (∀ x, a = VStr x → str a = x) ∧
        12 ≤ String.length (ljust s 12) ∧
        (String.length s < 12 →
           ljust s 12 = s +:+ spaces (12 - String.length s) ∧
           String.length (ljust s 12) = 12) ∧
        (12 ≤ String.length s → ljust s 12 = s).
Proof.
  intros (n & printed & idxs & partial & _ & _ & Hinv & Hw & Hend)%run_stands.
  exists printed, partial. rewrite Hw. simpl. split_and!; [done|done| |].
  - destruct (run d).1 as [[]|e]; [left; apply Hend|].
    destruct Hend as (k & _ & _ & [->|(-> & s & _ & Hs & ->)]); [by left|].
    right. by exists s.
  - intros s a [p Hp]%list_elem_of_lookup.
    destruct (processed_lookup _ _ _ _ _ _ Hinv Hp)
      as (i & k & _ & (Hk & Hs & _)%first_named_take & Ha).
    exists k. split_and!; try done.
    + by eapply list_elem_of_lookup_2.
    + by intros x ->.
    + destruct (decide (String.length s < 12)) as [Hlt|Hge].
      * by destruct (ljust_short s 12 Hlt) as [_ ->].
      * rewrite ljust_long; lia.
    + apply ljust_short.
    + apply ljust_long.
Qed.

(** ** Missing keys *)





(** C6. When the path [P] does not exist, the script raises
    [FileNotFoundError] from the state it started in: nothing was written. *)
Theorem missing_file (fs : gmap string string) :
  fs !! P = None →
  script fs boot = (Raised FileNotFoundError, boot) ∧
  stdout (script fs boot).2 = "".
Proof.
  intros Hmissing. unfold script, mbind, Script_bind, open.
  by rewrite Hmissing.
Qed.

(** ** Failure in the middle of the records *)


(** ** Only the two fields matter *)




(** ** The list of names met so far *)

(** C9. The list [contractNames] is empty before the first record; from one
    record to the next it is only extended at its end; and after any number
    of records processed without exception it has no duplicate, holds
    exactly the names of the records processed and lists them in the order
    of the index at which each name first appears. *)
Theorem seen_names_invariant (recs : list value) :
  contractNames (run_records (take 0 recs)).2 = [] ∧
  (∀ n m, n ≤ m →
     contractNames (run_records (take n recs)).2
       `prefix_of` contractNames (run_records (take m recs)).2) ∧
  (∀ n, (run_records (take n recs)).1 = Returned () →
     let seen := contractNames (run_records (take n recs)).2 in
     NoDup seen ∧
     (∀ s, s ∈ seen ↔ ∃ k, k ∈ take n recs ∧ name_of k = Some s) ∧
     (∀ p q s t, seen !! p = Some s → seen !! q = Some t → p < q →
        ∃ i j ki kj,
          first_named (take n recs) s i ki ∧
          first_named (take n recs) t j kj ∧ i < j)).
Proof.
  split_and!; [done| |].
  - intros n m Hle.
    replace (take n recs) with (take n (take m recs))
      by (rewrite take_take; f_equal; lia).
    apply run_records_take_grows.
  - intros n Hret.
    destruct (run_records (take n recs)) as [r w] eqn:Hrun. simpl in *. subst r.
    destruct (run_records_returned _ _ Hrun) as (printed & idxs & -> & Hinv).
    simpl. split_and!; [apply Hinv| |].
    + intros s. split.
      * intros ([s' a] & -> & [p Hp]%list_elem_of_lookup)%list_elem_of_fmap.
        destruct (processed_lookup _ _ _ _ _ _ Hinv Hp)
          as (i & k & _ & (Hk & Hs & _) & _).
        exists k. split; [by eapply list_elem_of_lookup_2|done].
      * intros (k & Hk & Hs).
        destruct (processed_covered _ _ _ Hinv k Hk) as (s' & Hs' & Hin).
        congruence.
    + intros p q s t Hp Hq Hlt.
      rewrite list_lookup_fmap in Hp, Hq.
      destruct (printed !! p) as [[s' a]|] eqn:Hp'; simplify_eq/=.
      destruct (printed !! q) as [[t' b]|] eqn:Hq'; simplify_eq/=.
      destruct (processed_lookup _ _ _ _ _ _ Hinv Hp') as (i & ki & Hi & Hfi & _).
      destruct (processed_lookup _ _ _ _ _ _ Hinv Hq') as (j & kj & Hj & Hfj & _).
      exists i, j, ki, kj. split_and!; try done.
      eapply sorted_lookup_lt; [apply Hinv|exact Hi|exact Hj|done].
Qed.

(** ** A repeated name is skipped before its address is read *)

(** C10. Let [k] be a record without [contractAddress] whose name [s] is
    carried by an earlier record [k0]. Once [s] is among the names met, the
    body of the loop run on [k] returns and changes nothing; and the run
    over the whole document is the run over the document without [k]: same
    output, same end, the records after [k] processed as usual. *)
Theorem duplicate_skipped (pre post : list value) (k k0 : value) (s : string) :
  k0 ∈ pre → name_of k0 = Some s →
  name_of k = Some s → lacks "contractAddress" k →
  (∀ w, s ∈ contractNames w → loop_body k w = (Returned (), w)) ∧
  run (document (pre ++ k :: post)) = run (document (pre ++ post)).
Proof.
  intros Hk0 Hs0 Hs%name_of_Some _.
  assert (∀ w, s ∈ contractNames w → loop_body k w = (Returned (), w)) as Hskip.
  { intros w Hin. by rewrite loop_body_unfold, Hs, decide_True. }
  split; [done|].
  rewrite !run_document. unfold run_records. rewrite !for_in_app.
  fold (run_records pre).
  destruct (run_records pre) as [[[]|e] w] eqn:Hrun; [|done].
  destruct (run_records_returned _ _ Hrun) as (printed & idxs & -> & Hinv).
  destruct (processed_covered _ _ _ Hinv k0 Hk0) as (s' & Hs' & Hin).
  assert (s' = s) as -> by congruence.
  rewrite for_in_cons. by rewrite (Hskip (shown printed) Hin).
Qed.

(** ** Names that are not text *)

(** X1. When the records before [k] are processed without exception and
    the [contractName] of [k] is there but is not text, the run raises
    [AttributeError] on [k]: the output and the names are those of the
    records before it, and no later record is reached. *)
Theorem non_text_name_raises (pre post : list value) (k v : value) :
  (run (document pre)).1 = Returned () →
  subscript k "contractName" = Returned v →
  (∀ s, v ≠ VStr s) →
  run (document (pre ++ k :: post))
    = (Raised (AttributeError "ljust"), (run (document pre)).2).
Proof.
  rewrite !run_document. intros Hpre Hname Htext.
  unfold run_records in *. rewrite for_in_app.
  destruct (for_in pre loop_body boot) as [r w]. simpl in Hpre. subst r.
  rewrite for_in_cons, loop_body_unfold, Hname.
  destruct v; try done. by destruct (Htext s).
Qed.

(** ** Transactions that are not a list *)

Lemma for_in_characters (s : string) (w : world) :
  for_in ((λ c, VStr (String c "")) <$> String.list_ascii_of_string s) loop_body w =
    match s with
    | "" => (Returned (), w)
    | String _ _ => (Raised TypeError, w)
    end.
Proof. by destruct s. Qed.

(** X2. When [d["transactions"]] is there but is not a list, nothing is
    written: the run returns for an empty object and for an empty text,
    which hold nothing to loop over, and raises [TypeError] for every other
    value. *)
Theorem transactions_not_a_list (d v : value) :
  subscript d "transactions" = Returned v →
  (∀ l, v ≠ VList l) →
  (v = VDict ∅ ∨ v = VStr "" → run d = (Returned (), boot)) ∧
  (v ≠ VDict ∅ → v ≠ VStr "" → run d = (Raised TypeError, boot)).
Proof.
  intros Htx Hlist.
  assert (run d = (iter v ≫= λ items, for_in items loop_body) boot) as ->.
  { unfold run, extract, mbind, Script_bind, getitem, contractNames_reset.
    simpl. by rewrite Htx. }
  unfold mbind, Script_bind.
  destruct v as [| | | |s|l|m]; simpl;
    try (split; [by intros [|]|done]).
  - rewrite for_in_characters. split.
    + by intros [|[= ->]].
    + intros _ Hs. destruct s; [done|done].
  - by destruct (Hlist l).
  - rewrite for_in_text. split.
    + intros [[= ->]|]; [|done]. by rewrite map_to_list_empty.
    + intros Hm _. destruct (map_to_list m) as [|[key x] rest] eqn:Hkeys; [|done].
      apply map_to_list_empty_iff in Hkeys. by subst m.
Qed.

(** ** Records with names all different *)

Lemma for_in_distinct (recs : list value) (ps : list (string * value)) :
  Forall2 carries recs ps → NoDup ps.*1 → Forall printable recs →
  ∀ w, (∀ s, s ∈ ps.*1 → s ∉ contractNames w) →
    for_in recs loop_body w =
      (Returned (), after (stdout w) (contractNames w) (shown ps)).
Proof.
  induction 1 as [|k [s a] recs ps [Hs Ha] _ IH];
    intros Hnodup Hprintable w Hnew; simpl in *.
  { unfold after. simpl. rewrite append_nil_r, app_nil_r. by destruct w. }
  apply NoDup_cons in Hnodup as [Hs_rest Hnodup].
  apply Forall_cons in Hprintable as [Hk Hprintable].
  destruct (Hk s a Hs Ha) as [Hfield Htext].
  unfold mbind, Script_bind. rewrite loop_body_unfold.
  apply name_of_Some in Hs. apply address_of_Some in Ha.
  rewrite Hs, Ha, Hfield, Htext.
  rewrite decide_False by (apply Hnew; left).
  rewrite IH; [|done|done|].
  - unfold after, emit. simpl. by rewrite append_assoc, <-app_assoc.
  - intros s' Hs' [Hin| ->%list_elem_of_singleton]%elem_of_app.
    + apply (Hnew s'); [by right|done].
    + done.
Qed.

Lemma run_distinct (recs : list value) (ps : list (string * value)) :
  Forall2 carries recs ps → NoDup ps.*1 → Forall printable recs →
  run (document recs) = (Returned (), shown ps).
Proof.
  intros Hcarries Hnodup Hprintable. rewrite run_document. unfold run_records.
  rewrite (for_in_distinct recs ps Hcarries Hnodup Hprintable boot); [done|].
  intros s _ Hin. by apply elem_of_nil in Hin.
Qed.

(** X3. When every record carries a name and an address that standard
    output can encode, and no two records carry the same name, the run
    returns and has written one line per record, in the order of the
    records, and nothing else; the names met are the names of the records,
    in that order. *)
Theorem distinct_names_print_all (recs : list value) (ps : list (string * value)) :
  Forall2 carries recs ps → NoDup ps.*1 → Forall printable recs →
  (run (document recs)).1 = Returned () ∧
  stdout (run (document recs)).2 = foldr (λ p rest, line p.1 p.2 +:+ rest) "" ps ∧
  contractNames (run (document recs)).2 = ps.*1.
Proof.
  intros Hcarries Hnodup Hprintable.
  by rewrite (run_distinct recs ps Hcarries Hnodup Hprintable).
Qed.

(** ** Continuing after a first part of the records *)

(** The loop started with some output and some names behind it does what
    the loop started afresh does on the records that repeat none of those
    names, and writes after what was there. *)
Lemma for_in_after (out : string) (seen : list string) (l : list value)
    (o : string) (n : list string) :
  for_in l loop_body (World (out +:+ o) (seen ++ n)) =
    let '(r, w) := for_in (unseen seen l) loop_body (World o n) in
    (r, after out seen w).
Proof.
  revert o n. induction l as [|k l IH]; intros o n; [done|].
  unfold unseen. rewrite filter_cons. fold (unseen seen l).
  destruct (decide (¬ repeats seen k)) as [Hkeep|Hdrop].
  - (* [k] is kept: both loops run the body on it *)
    rewrite !for_in_cons, !loop_body_unfold.
    destruct (subscript k "contractName") as [v|e] eqn:Hname; [|done].
    destruct v as [| | | |s| |]; try done.
    assert (s ∉ seen) as Hnew.
    { intros Hseen. apply Hkeep. unfold repeats, name_of. by rewrite Hname. }
    simpl. destruct (decide (s ∈ n)) as [Hn|Hn].
    + rewrite decide_True by (apply elem_of_app; by right). apply IH.
    + rewrite decide_False by (by intros [|]%elem_of_app).
      destruct (subscript k "contractAddress") as [a|e]; [|done].
      destruct (encodable (ljust s 12)); [|done].
      destruct (encodable (str a)).
      * unfold emit. simpl. rewrite append_assoc, <-app_assoc. apply IH.
      * unfold after. simpl. by rewrite append_assoc.
  - (* [k] repeats a name met before: the loop skips it *)
    apply dec_stable in Hdrop. unfold repeats in Hdrop.
    destruct (name_of k) as [s|] eqn:Hs; [|done].
    apply name_of_Some in Hs.
    rewrite for_in_cons, loop_body_unfold, Hs. simpl.
    rewrite decide_True by (apply elem_of_app; by left). apply IH.
Qed.

(** X4. When the run over the records [l1] returns, the run over [l1]
    followed by [l2] is the run over [l1] continued by the run over those
    records of [l2] that repeat no name met in [l1]: same result, the
    output and the names of the second run written after those of the
    first. *)
Theorem run_app (l1 l2 : list value) :
  (run (document l1)).1 = Returned () →
  run (document (l1 ++ l2)) =
    (let w1 := (run (document l1)).2 in
     let '(r, w2) := run (document (unseen (contractNames w1) l2)) in
     (r, after (stdout w1) (contractNames w1) w2)).
Proof.
  rewrite !run_document. unfold run_records. rewrite for_in_app.
  destruct (for_in l1 loop_body boot) as [r [out seen]]. simpl. intros ->.
  rewrite <-(append_nil_r out) at 1. rewrite <-(app_nil_r seen) at 1.
  apply for_in_after.
Qed.

(** ** Records in another order *)

(** X7. When every record carries both keys and its texts can be encoded,
    putting the records in another order changes neither the fact that the
    run returns nor the names met, up to their order; and when no name and
    no address holds a newline, it does not change the number of lines of
    the output. *)
Theorem names_under_permutation (recs1 recs2 : list value) :
  recs1 ≡ₚ recs2 → Forall complete recs1 → Forall printable recs1 →
  (run (document recs1)).1 = Returned () ∧
  (run (document recs2)).1 = Returned () ∧
  contractNames (run (document recs1)).2 ≡ₚ contractNames (run (document recs2)).2 ∧
  (Forall single_line recs1 →
     newlines (stdout (run (document recs1)).2)
       = newlines (stdout (run (document recs2)).2)).
Proof.
  intros Hperm Hcomplete1 Hprintable1.
  assert (Forall complete recs2) as Hcomplete2 by (by rewrite <-Hperm).
  assert (Forall printable recs2) as Hprintable2 by (by rewrite <-Hperm).
  pose proof (complete_returns _ _ (transactions_of_document recs1)
                Hcomplete1 Hprintable1) as Hret1.
  pose proof (complete_returns _ _ (transactions_of_document recs2)
                Hcomplete2 Hprintable2) as Hret2.
  rewrite !run_document in *.
  destruct (run_records recs1) as [r1 w1] eqn:Hrun1.
  destruct (run_records recs2) as [r2 w2] eqn:Hrun2. simpl in *. subst r1 r2.
  destruct (run_records_returned _ _ Hrun1) as (printed1 & idxs1 & -> & Hinv1).
  destruct (run_records_returned _ _ Hrun2) as (printed2 & idxs2 & -> & Hinv2).
  simpl. split_and!; [done|done| |].
  - apply NoDup_Permutation; [apply Hinv1|apply Hinv2|]. intros s.
    assert (∀ recs printed idxs, processed recs printed idxs →
              s ∈ printed.*1 ↔ ∃ k, k ∈ recs ∧ name_of k = Some s) as Hnames.
    { intros recs printed idxs Hinv. split.
      - intros ([s' a] & -> & [p Hp]%list_elem_of_lookup)%list_elem_of_fmap.
        destruct (processed_lookup _ _ _ _ _ _ Hinv Hp)
          as (i & k & _ & (Hk & Hs & _) & _).
        exists k. split; [by eapply list_elem_of_lookup_2|done].
      - intros (k & Hk & Hs).
        destruct (processed_covered _ _ _ Hinv k Hk) as (s' & Hs' & Hin).
        congruence. }
    rewrite (Hnames _ _ _ Hinv1), (Hnames _ _ _ Hinv2). by setoid_rewrite Hperm.
  - intros Hsingle1.
    assert (Forall single_line recs2) as Hsingle2 by (by rewrite <-Hperm).
    rewrite !newlines_render by (by eapply processed_single_line).
    rewrite (processed_length _ _ _ Hinv1), (processed_length _ _ _ Hinv2).
    unfold distinct_names. f_equal. apply set_eq. intros s.
    rewrite !elem_of_list_to_set, !list_elem_of_omap. by setoid_rewrite Hperm.
Qed.

(** ** Reading the output back *)

(** Texts without the character [c] followed by [c]: the first [c] tells
    where the first text ends. *)
Lemma append_char_inj (c : ascii) (s s' r r' : string) :
  c ∉ String.list_ascii_of_string s → c ∉ String.list_ascii_of_string s' →
  s +:+ String c r = s' +:+ String c r' → s = s' ∧ r = r'.
Proof.
  revert s'.
  induction s as [|x s IH]; intros [|x' s'] Hs Hs' Heq;
    rewrite ?append_nil, ?append_cons in Heq; simpl in *; simplify_eq.
  - done.
  - destruct Hs'. left.
  - destruct Hs. left.
  - destruct (IH s') as [-> ->]; [..|done|done].
    + intros Hin. apply Hs. by right.
    + intros Hin. apply Hs'. by right.
Qed.

Lemma newlines_free (s : string) :
  newlines s = 0 → "010"%char ∉ String.list_ascii_of_string s.
Proof.
  induction s as [|c s IH]; simpl; [intros _ Hin; by apply elem_of_nil in Hin|].
  case_decide; [done|]. simpl. intros Hrest [?|Hin]%elem_of_cons; [done|].
  by apply IH.
Qed.

(** The name field and the separator: the name, a space, and the rest. *)
Lemma ljust_separator (s t : string) (width : nat) :
  ∃ r, ljust s width +:+ " " +:+ t = s +:+ String " " r.
Proof.
  unfold ljust. destruct (decide (width ≤ String.length s)); [by exists t|].
  destruct (width - String.length s) as [|m] eqn:Hpad; [lia|].
  exists (spaces m +:+ " " +:+ t). by rewrite append_assoc.
Qed.

Lemma line_append (s : string) (a : value) (rest : string) :
  line s a +:+ rest = ljust s 12 +:+ " " +:+ (str a +:+ String "010" rest).
Proof. unfold line, newline. by rewrite !append_assoc. Qed.

(** The lines of plain pairs can be read back: the first space ends the
    name, the padding is known from the name, the first newline ends the
    address. *)
Lemma render_inj (ps ps' : list (string * string)) :
  Forall plain ps → Forall plain ps' →
  render (prod_map id VStr <$> ps) = render (prod_map id VStr <$> ps') →
  ps = ps'.
Proof.
  revert ps'. induction ps as [|[s a] ps IH]; intros [|[s' a'] ps'] Hps Hps' Heq;
    simpl in Heq.
  - done.
  - apply (f_equal newlines) in Heq. rewrite newlines_append, newlines_line in Heq.
    simpl in Heq. lia.
  - apply (f_equal newlines) in Heq. rewrite newlines_append, newlines_line in Heq.
    simpl in Heq. lia.
  - apply Forall_cons in Hps as [(Hs & _ & Ha) Hps].
    apply Forall_cons in Hps' as [(Hs' & _ & Ha') Hps'].
    rewrite !line_append in Heq.
    assert (s = s') as <-.
    { match type of Heq with
      | _ +:+ _ +:+ ?X = _ +:+ _ +:+ ?Y =>
          destruct (ljust_separator s X 12) as [r Hr];
          destruct (ljust_separator s' Y 12) as [r' Hr']
      end.
      rewrite Hr, Hr' in Heq.
      by destruct (append_char_inj _ _ _ _ _ Hs Hs' Heq). }
    apply (inj (String.append (ljust s 12))) in Heq.
    apply (inj (String.append " ")) in Heq.
    destruct (append_char_inj _ _ _ _ _ (newlines_free a Ha) (newlines_free a' Ha') Heq)
      as [-> Hrest].
    f_equal. by apply IH.
Qed.

(** X8. For records whose names are all different and hold neither space
    nor newline, and whose addresses are texts without newline, all of them
    encoded by standard output, the output tells the names and the
    addresses: two such lists of records that make the script write the
    same output carry the same names and addresses, index by index. *)
Theorem output_determines_pairs (recs recs' : list value) (ps ps' : list (string * string)) :
  Forall2 carries recs (prod_map id VStr <$> ps) →
  Forall2 carries recs' (prod_map id VStr <$> ps') →
  NoDup ps.*1 → NoDup ps'.*1 →
  Forall printable recs → Forall printable recs' →
  Forall plain ps → Forall plain ps' →
  stdout (run (document recs)).2 = stdout (run (document recs')).2 →
  ps = ps'.
Proof.
  intros Hrecs Hrecs' Hnodup Hnodup' Hprintable Hprintable' Hplain Hplain'.
  assert (∀ qs : list (string * string), (prod_map id VStr <$> qs).*1 = qs.*1) as Hfst.
  { intros qs. rewrite <-list_fmap_compose. by apply list_fmap_ext; intros ? []. }
  rewrite (run_distinct _ _ Hrecs), (run_distinct _ _ Hrecs');
    [|by rewrite Hfst|done|by rewrite Hfst|done].
  simpl. by apply render_inj.
Qed.

End Script.

(** ** The theorems at the sample inputs *)

(** The sample runs write to a standard output encoded in ASCII. *)
Local Abbreviation run_sample := (run str_sample encodable_ascii).
Local Abbreviation line_sample := (line str_sample).
Local Abbreviation render_sample := (render str_sample).

(** Closes a goal about a sample by evaluation. *)
Ltac by_evaluation :=
  vm_compute; first [reflexivity | discriminate | by repeat constructor].

(** Decides a closed statement by evaluation of its decision procedure. *)
Ltac by_decision :=
  match goal with
  | |- ?G => apply (bool_decide_unpack G); vm_compute; exact I
  end.

(** Proves a property of every record of a sample list. *)
Ltac each tac := repeat (apply Forall_cons_2; [tac|]); apply Forall_nil_2.

(** Proves a property of the name and the address of a sample record. *)
Ltac by_fields :=
  let s := fresh "s" in let a := fresh "a" in
  let Hs := fresh "Hs" in let Ha := fresh "Ha" in
  intros s a Hs Ha; vm_compute in Hs, Ha; simplify_eq; split; by_evaluation.

Lemma record_complete (name address : string) : complete (record name address).
Proof.
  exists name, (VStr address). unfold name_of, address_of, record. simpl.
  rewrite lookup_insert_eq, lookup_insert_ne, lookup_singleton_eq; done.
Qed.

(** The run on the example of the specification. *)
Lemma run_sample_example :
  run_sample sample =
    (Returned (),
     World (line_sample "Token" (VStr "0xAA") +:+ line_sample "Vault" (VStr "0xBB"))
           [ "Token"; "Vault" ]).
Proof. by_evaluation. Qed.

Lemma first_record_wins_sample :
  transactions_of sample = Some sample_records ∧
  ∃ (printed : list (string * value)) (partial : string),
    stdout (run_sample sample).2 = render_sample printed +:+ partial ∧
    contractNames (run_sample sample).2 = printed.*1 ∧
    NoDup printed.*1 ∧
    (∀ s a, (s, a) ∈ printed →
       ∃ i k, first_named sample_records s i k ∧ address_of k = Some a) ∧
    (partial = "" ∨
     (run_sample sample).1 = Raised UnicodeEncodeError ∧
     ∃ s, (s ∉ printed.*1) ∧ partial = ljust s 12 +:+ " ") ∧
    ((run_sample sample).1 = Returned () →
       partial = "" ∧
       ∀ k s, k ∈ sample_records → name_of k = Some s → s ∈ printed.*1).
Proof.
  split; [by_evaluation|].
  apply (first_record_wins str_sample encodable_ascii sample sample_records).
  by_evaluation.
Defined.

Lemma first_appearance_order_sample :
  transactions_of sample = Some sample_records ∧
  ∃ (printed : list (string * value)) (partial : string),
    stdout (run_sample sample).2 = render_sample printed +:+ partial ∧
    contractNames (run_sample sample).2 = printed.*1 ∧
    NoDup printed.*1 ∧
    (partial = "" ∨ ∃ s, (s ∉ printed.*1) ∧ partial = ljust s 12 +:+ " ") ∧
    (∀ p A a, printed !! p = Some (A, a) →
       ∃ i kA, first_named sample_records A i kA ∧ address_of kA = Some a) ∧
    (∀ p q A B a b i j kA kB,
       printed !! p = Some (A, a) → printed !! q = Some (B, b) →
       first_named sample_records A i kA → first_named sample_records B j kB →
       (p < q ↔ i < j)) ∧
    (∀ A B i j kA kB q b,
       first_named sample_records A i kA → first_named sample_records B j kB →
       i < j → printed !! q = Some (B, b) →
       ∃ p a, p < q ∧ printed !! p = Some (A, a)) ∧
    ((run_sample sample).1 = Returned () →
       partial = "" ∧
       ∀ A i kA, first_named sample_records A i kA →
         ∃ p a, printed !! p = Some (A, a)).
Proof.
  split; [by_evaluation|].
  apply (first_appearance_order str_sample encodable_ascii sample sample_records).
  by_evaluation.
Defined.

(** C3 as the claim states it fails, twice. Two records with two names, the
    second address holding a newline: the run returns and the output has
    three lines. Two records with two names, the second without address:
    the run raises and the output has one line. *)
Lemma lines_are_not_names :
  (distinct_names newline_in_address = 2 ∧
   (run_sample (document newline_in_address)).1 = Returned () ∧
   newlines (stdout (run_sample (document newline_in_address)).2) = 3) ∧
  (distinct_names addressless_second = 2 ∧
   (run_sample (document addressless_second)).1 = Raised (KeyError "contractAddress") ∧
   newlines (stdout (run_sample (document addressless_second)).2) = 1).
Proof. split_and!; by_evaluation. Qed.

Lemma one_line_per_name_sample :
  ((run_sample sample).1 = Returned () →
     distinct_names sample_records ≤ newlines (stdout (run_sample sample).2) ∧
     (Forall (single_line str_sample) sample_records →
        newlines (stdout (run_sample sample).2) = distinct_names sample_records)) ∧
  (Forall complete sample_records →
   Forall (printable str_sample encodable_ascii) sample_records →
   (run_sample sample).1 = Returned ()) ∧
  (sample_records = [] → run_sample sample = (Returned (), boot)).
Proof.
  apply (one_line_per_name str_sample encodable_ascii sample sample_records).
  by_evaluation.
Defined.

(** The hypotheses of C3 hold of the example: its records are complete,
    encoded by ASCII and free of newlines. *)
Lemma sample_records_fit :
  Forall complete sample_records ∧
  Forall (printable str_sample encodable_ascii) sample_records ∧
  Forall (single_line str_sample) sample_records.
Proof.
  split_and!.
  - each ltac:(apply record_complete).
  - each by_fields.
  - each by_fields.
Qed.

Lemma line_format_sample :
  transactions_of sample = Some sample_records ∧
  ∃ (printed : list (string * value)) (partial : string),
    stdout (run_sample sample).2
      = foldr (λ p rest, line_sample p.1 p.2 +:+ rest) "" printed +:+ partial ∧
    contractNames (run_sample sample).2 = printed.*1 ∧
    (partial = "" ∨ ∃ s, (s ∉ printed.*1) ∧ partial = ljust s 12 +:+ " ") ∧
    ∀ s a, (s, a) ∈ printed →
      ∃ k,
        k ∈ sample_records ∧ name_of k = Some s ∧ address_of k = Some a ∧
        line_sample s a = (ljust s 12 +:+ " " +:+ str str_sample a) +:+ newline ∧
        (∀ x, a = VStr x → str str_sample a = x) ∧
        12 ≤ String.length (ljust s 12) ∧
        (String.length s < 12 →
           ljust s 12 = s +:+ spaces (12 - String.length s) ∧
           String.length (ljust s 12) = 12) ∧
        (12 ≤ String.length s → ljust s 12 = s).
Proof.
  split; [by_evaluation|].
  apply (line_format str_sample encodable_ascii sample sample_records).
  by_evaluation.
Defined.

(** The run on a document whose second record repeats a name and has no
    address: it returns, with a line for each of the two names. *)
Lemma run_duplicate_without_address :
  run_sample (document duplicate_without_address) =
    (Returned (),
     World (line_sample "Token" (VStr "0xAA") +:+ line_sample "Vault" (VStr "0xBB"))
           [ "Token"; "Vault" ]).
Proof. by_evaluation. Qed.



(** The premises of C5 at the third record of [nameless_third]. *)
Lemma nameless_third_premises :
  transactions_of (document nameless_third) = Some nameless_third ∧
  nameless_third !! 2 = Some (record_no_name "0xCC") ∧
  lacks "contractName" (record_no_name "0xCC") ∧
  (run_sample (document (take 2 nameless_third))).1 = Returned ().
Proof. split_and!; by_evaluation. Qed.

Lemma missing_file_sample :
  (∅ : gmap string string) !! P = None ∧
  script str_sample encodable_ascii json_load_sample ∅ boot
    = (Raised FileNotFoundError, boot) ∧
  stdout (script str_sample encodable_ascii json_load_sample ∅ boot).2 = "".
Proof.
  split; [apply lookup_empty|].
  apply (missing_file str_sample encodable_ascii json_load_sample ∅).
  apply lookup_empty.
Defined.





Lemma duplicate_skipped_sample :
  (∀ w, "Token" ∈ contractNames w →
     loop_body str_sample encodable_ascii (record_no_address "Token") w
       = (Returned (), w)) ∧
  run_sample (document duplicate_without_address)
    = run_sample (document ([record "Token" "0xAA"] ++ [record "Vault" "0xBB"])).
Proof.
  apply (duplicate_skipped str_sample encodable_ascii
           [record "Token" "0xAA"] [record "Vault" "0xBB"]
           (record_no_address "Token") (record "Token" "0xAA") "Token").
  - apply list_elem_of_here.
  - by_evaluation.
  - by_evaluation.
  - by_evaluation.
Defined.

(** ** The further theorems at sample inputs *)

Lemma non_text_name_raises_sample :
  run_sample
      (document ([record "Token" "0xAA"] ++ record_null_name "0xEE"
                   :: [record "Vault" "0xBB"]))
    = (Raised (AttributeError "ljust"),
       (run_sample (document [record "Token" "0xAA"])).2).
Proof.
  apply (non_text_name_raises str_sample encodable_ascii [record "Token" "0xAA"]
           [record "Vault" "0xBB"] (record_null_name "0xEE") VNone).
  - by_evaluation.
  - by_evaluation.
  - done.
Defined.

Lemma transactions_not_a_list_sample :
  (VStr "0xAA" = VDict ∅ ∨ VStr "0xAA" = VStr "" →
     run_sample (VDict {[ "transactions" := VStr "0xAA" ]}) = (Returned (), boot)) ∧
  (VStr "0xAA" ≠ VDict ∅ → VStr "0xAA" ≠ VStr "" →
     run_sample (VDict {[ "transactions" := VStr "0xAA" ]}) = (Raised TypeError, boot)).
Proof.
  apply (transactions_not_a_list str_sample encodable_ascii
           (VDict {[ "transactions" := VStr "0xAA" ]}) (VStr "0xAA")).
  - by_evaluation.
  - done.
Defined.

Lemma distinct_names_print_all_sample :
  (run_sample (document [record "Token" "0xAA"; record "Vault" "0xBB"])).1
    = Returned () ∧
  stdout (run_sample (document [record "Token" "0xAA"; record "Vault" "0xBB"])).2
    = foldr (λ p rest, line_sample p.1 p.2 +:+ rest) ""
        [("Token", VStr "0xAA"); ("Vault", VStr "0xBB")] ∧
  contractNames (run_sample (document [record "Token" "0xAA"; record "Vault" "0xBB"])).2
    = [("Token", VStr "0xAA"); ("Vault", VStr "0xBB")].*1.
Proof.
  apply (distinct_names_print_all str_sample encodable_ascii
           [record "Token" "0xAA"; record "Vault" "0xBB"]
           [("Token", VStr "0xAA"); ("Vault", VStr "0xBB")]).
  - repeat constructor; by_evaluation.
  - by_decision.
  - each by_fields.
Defined.

Lemma run_app_sample :
  run_sample
      (document ([record "Token" "0xAA"; record "Vault" "0xBB"]
                   ++ [record "Token" "0xCC"; record "Pool" "0xDD"])) =
    (let w1 := (run_sample
                  (document [record "Token" "0xAA"; record "Vault" "0xBB"])).2 in
     let '(r, w2) :=
       run_sample
         (document (unseen (contractNames w1)
                      [record "Token" "0xCC"; record "Pool" "0xDD"])) in
     (r, after (stdout w1) (contractNames w1) w2)).
Proof.
  apply (run_app str_sample encodable_ascii
           [record "Token" "0xAA"; record "Vault" "0xBB"]
           [record "Token" "0xCC"; record "Pool" "0xDD"]).
  by_evaluation.
Defined.

Lemma names_under_permutation_sample :
  (run_sample (document sample_records)).1 = Returned () ∧
  (run_sample (document (rev sample_records))).1 = Returned () ∧
  contractNames (run_sample (document sample_records)).2
    ≡ₚ contractNames (run_sample (document (rev sample_records))).2 ∧
  (Forall (single_line str_sample) sample_records →
     newlines (stdout (run_sample (document sample_records)).2)
       = newlines (stdout (run_sample (document (rev sample_records))).2)).
Proof.
  apply (names_under_permutation str_sample encodable_ascii
           sample_records (rev sample_records)).
  - apply Permutation_rev.
  - each ltac:(apply record_complete).
  - each by_fields.
Defined.

Lemma output_determines_pairs_sample :
  [("Token", "0xAA"); ("Vault", "0xBB")]
    = ([("Token", "0xAA"); ("Vault", "0xBB")] : list (string * string)).
Proof.
  apply (output_determines_pairs str_sample encodable_ascii
           [record "Token" "0xAA"; record "Vault" "0xBB"]
           [annotated "Token" "0xAA" "0x01"; annotated "Vault" "0xBB" "0x02"]).
  - repeat constructor; by_evaluation.
  - repeat constructor; by_evaluation.
  - by_decision.
  - by_decision.
  - each by_fields.
  - each by_fields.
  - each ltac:(split_and!; [unfold no_space; by_decision|by_evaluation..]).
  - each ltac:(split_and!; [unfold no_space; by_decision|by_evaluation..]).
  - by_evaluation.
Defined.
